(** * OrchardOfLetters: the word-list filter [public/words/filter_words.py]

    The script loads a blocklist file into a set of lowercase single words
    and stream-filters a word list against it.  This development embeds the
    functions [load_blocklist], [filter_wordlist] and [main] together with
    the Python built-ins they call ([str.strip], [str.lower], iteration over
    a text file, [set] membership, [open], [os.path.join]) and proves the
    properties the specification states about them, then further properties
    read off the code.

    Text is modelled as [string]: a sequence of characters, each [ascii]
    standing for the code point U+0000..U+00FF.  A file is modelled by the
    text the program sees through Python's text layer (decoded, and with
    line ends already translated to a line feed); the blocked words form a
    [gset string]. *)

From Stdlib Require Import Ascii String List Arith Lia.
From stdpp Require Import base decidable list sets gmap strings pretty.

Import ListNotations.
Local Open Scope string_scope.
Local Open Scope list_scope.

(* stdpp freezes [String.append] under [simpl]; the proofs below unfold it
   on a constructor. *)
#[local] Arguments String.append !_ _ / : simpl nomatch.

(** ** Python built-ins on [str] *)

Module Py.

(** The line feed, the only line terminator seen when iterating over a
    file opened in text mode. *)
Definition LF : ascii := "010"%char.

(** The space character of the test [' ' not in word]. *)
Definition SP : ascii := " "%char.

(** The string ['\n']. *)
Definition nl : string := String LF EmptyString.

(** [str.isspace] on one character: the white space of the Unicode
    database in the range U+0000..U+00FF, namely U+0009..U+000D,
    U+001C..U+001F, U+0020, U+0085 and U+00A0. *)
Definition isspace (c : ascii) : bool :=
  let n := nat_of_ascii c in
  (((9 <=? n) && (n <=? 13)) || ((28 <=? n) && (n <=? 32))
   || (n =? 133) || (n =? 160))%nat.

(** [str.lower] on one character: A..Z, and the capital letters
    U+00C0..U+00DE except the multiplication sign U+00D7, move up by 32;
    every other character of the range is its own lowercase. *)
Definition lower_char (c : ascii) : ascii :=
  let n := nat_of_ascii c in
  if (((65 <=? n) && (n <=? 90))
      || ((192 <=? n) && (n <=? 222) && negb (n =? 215)))%nat
  then ascii_of_nat (n + 32) else c.

(** [s.lower()] *)
Fixpoint lower (s : string) : string :=
  match s with
  | EmptyString => EmptyString
  | String c s' => String (lower_char c) (lower s')
  end.

(** [s.lstrip()]: drop the leading white space. *)
Fixpoint lstrip (s : string) : string :=
  match s with
  | EmptyString => EmptyString
  | String c s' => if isspace c then lstrip s' else s
  end.

(** [s.rstrip()]: drop the trailing white space. *)
Fixpoint rstrip (s : string) : string :=
  match s with
  | EmptyString => EmptyString
  | String c s' =>
      match rstrip s' with
      | EmptyString => if isspace c then EmptyString else String c EmptyString
      | r => String c r
      end
  end.

(** [s.strip()]: drop the white space at both ends. *)
Definition strip (s : string) : string := rstrip (lstrip s).

(** [c in s] for a single character [c]. *)
Fixpoint contains (c : ascii) (s : string) : bool :=
  match s with
  | EmptyString => false
  | String d s' => if Ascii.eqb c d then true else contains c s'
  end.

(** [bool(s)]: a string is true when it is not empty. *)
Definition truthy (s : string) : bool :=
  match s with EmptyString => false | String _ _ => true end.

(** [for line in f] on a text file: the text is cut after every line
    feed, each line keeps its line feed, and a last line that is not
    terminated is yielded as it is. *)
Fixpoint readlines (text : string) : list string :=
  match text with
  | EmptyString => []
  | String c rest =>
      if Ascii.eqb c LF then String c EmptyString :: readlines rest
      else match readlines rest with
           | [] => [String c EmptyString]
           | l :: ls => String c l :: ls
           end
  end.

End Py.

(** ** The script *)

(** [load_blocklist]: one turn of the loop over the lines of the blocklist
    file. *)
Definition load_blocklist_line (blocked_words : gset string) (line : string)
  : gset string :=
  let word := Py.lower (Py.strip line) in
  if Py.truthy word then
    if negb (Py.contains Py.SP word) then {[ word ]} ∪ blocked_words
    else blocked_words
  else blocked_words.

(** [load_blocklist(blocklist_path)], on the text of the blocklist file. *)
Definition load_blocklist (blocklist : string) : gset string :=
  fold_left load_blocklist_line (Py.readlines blocklist) ∅.

(** The local state of [filter_wordlist]: the two counters, the list of
    removed words and what has been written to the output file. *)
Record filter_state : Type := FilterState {
  kept_count : nat;
  removed_count : nat;
  removed_words : list string;
  outfile : string
}.

(** The state before the loop; the output file is opened with mode ['w'],
    hence empty. *)
Definition filter_init : filter_state :=
  {| kept_count := 0; removed_count := 0; removed_words := []; outfile := "" |}.

(** One turn of the loop over the lines of the input file. *)
Definition filter_line (blocked_words : gset string) (st : filter_state)
    (line : string) : filter_state :=
  let word := Py.strip line in
  if bool_decide (Py.lower word ∉ blocked_words) then
    {| kept_count := kept_count st + 1;
       removed_count := removed_count st;
       removed_words := removed_words st;
       outfile := outfile st +:+ (word +:+ Py.nl) |}
  else
    {| kept_count := kept_count st;
       removed_count := removed_count st + 1;
       removed_words := removed_words st ++ [word];
       outfile := outfile st |}.

(** [filter_wordlist(input_path, output_path, blocked_words)], on the text
    of the input file; the final state holds the returned triple and the
    text of the output file. *)
Definition filter_wordlist (infile : string) (blocked_words : gset string)
  : filter_state :=
  fold_left (filter_line blocked_words) (Py.readlines infile) filter_init.

(** ** Vocabulary of the specification *)

(** A line without its terminator: what [line.rstrip('\n')] leaves of a
    line yielded by the iteration over a file. *)
Fixpoint chomp (line : string) : string :=
  match line with
  | EmptyString => EmptyString
  | String c rest =>
      match rest with
      | EmptyString => if Ascii.eqb c Py.LF then EmptyString else line
      | String _ _ => String c (chomp rest)
      end
  end.

(** The lines of a file, as a sequence of strings without terminators. *)
Definition file_lines (text : string) : list string :=
  map chomp (Py.readlines text).

(** The text of the file whose lines are [ls], each one terminated. *)
Fixpoint unlines (ls : list string) : string :=
  match ls with
  | [] => EmptyString
  | l :: ls' => l +:+ Py.nl +:+ unlines ls'
  end.

(** The words of the input file: the value of the variable [word] at each
    turn of the loop of [filter_wordlist]. *)
Definition input_words (infile : string) : list string :=
  map Py.strip (Py.readlines infile).

(** A string made of white space only (the empty string included). *)
Fixpoint blank (s : string) : bool :=
  match s with
  | EmptyString => true
  | String c s' => Py.isspace c && blank s'
  end.

(** The word of a line as the specification describes it: only the
    trailing white space and the line end are stripped. *)
Definition spec_word (line : string) : string := Py.rstrip line.

(** One turn of the filter loop as the specification describes it, on
    [spec_word]. *)
Definition spec_filter_line (blocked_words : gset string) (st : filter_state)
    (line : string) : filter_state :=
  let word := spec_word line in
  if bool_decide (Py.lower word ∉ blocked_words) then
    {| kept_count := kept_count st + 1;
       removed_count := removed_count st;
       removed_words := removed_words st;
       outfile := outfile st +:+ (word +:+ Py.nl) |}
  else
    {| kept_count := kept_count st;
       removed_count := removed_count st + 1;
       removed_words := removed_words st ++ [word];
       outfile := outfile st |}.

(** ** Paths *)

(** [p[:p.rfind('/') + 1]]: the part of a path up to its last slash. *)
Fixpoint head_to_sep (p : string) : string :=
  match p with
  | EmptyString => EmptyString
  | String c rest =>
      if Py.contains "/" (String c rest) then String c (head_to_sep rest)
      else EmptyString
  end.

(** [head == '/' * len(head)] *)
Fixpoint all_sep (head : string) : bool :=
  match head with
  | EmptyString => true
  | String c rest => Ascii.eqb c "/" && all_sep rest
  end.

(** [head.rstrip('/')] *)
Fixpoint rstrip_sep (head : string) : string :=
  match head with
  | EmptyString => EmptyString
  | String c rest =>
      match rstrip_sep rest with
      | EmptyString =>
          if Ascii.eqb c "/" then EmptyString else String c EmptyString
      | r => String c r
      end
  end.

(** [os.path.dirname(p)] of [posixpath]. *)
Definition dirname (p : string) : string :=
  let head := head_to_sep p in
  if Py.truthy head && negb (all_sep head) then rstrip_sep head else head.

(** The directories a path lies under: its [dirname], the [dirname] of
    that, and so on. *)
Fixpoint ancestors_upto (n : nat) (p : string) : list string :=
  match n with
  | O => []
  | S n' => dirname p :: ancestors_upto n' (dirname p)
  end.

Definition ancestors (p : string) : list string :=
  ancestors_upto (String.length p) p.

(** The components of a path, cut at the slashes. *)
Fixpoint split_sep (p : string) : list string :=
  match p with
  | EmptyString => [EmptyString]
  | String c rest =>
      if Ascii.eqb c "/" then EmptyString :: split_sep rest
      else match split_sep rest with
           | [] => [String c EmptyString]
           | x :: xs => String c x :: xs
           end
  end.

(** A canonical path, as [os.path.abspath] returns them: absolute, with no
    empty component, no [.] and no [..], hence no doubled or final slash;
    the root is canonical. *)
Definition canonical (p : string) : bool :=
  match p with
  | EmptyString => false
  | String c rest =>
      Ascii.eqb c "/"
      && (negb (Py.truthy rest)
          || forallb (λ x, Py.truthy x && negb (String.eqb x ".")
                           && negb (String.eqb x ".."))
                     (split_sep rest))
  end.

(** ** Files, standard output and exceptions

    The functions of the script take paths.  The world they run in is the
    store of text files, keyed by path, the directories that exist besides
    those the files lie under, and the text printed so far; a computation
    returns a value or raises, and what it did to the world before raising
    stays done.  A path stands for the file it spells: two spellings of one
    file ([all.txt] and [./all.txt], a link, another casing on a file
    system that ignores case) are two keys, so the store is faithful on
    canonical paths of a case-sensitive file system without links.  Only
    [FileNotFoundError] is modelled; permissions, decoding errors and paths
    that are directories are not. *)

Module IO.

Inductive exn : Type := FileNotFoundError (path : string).

Record world : Type := World {
  files : gmap string string;
  dirs : gset string;
  stdout : string
}.

(** The directory [d] exists: it is the current directory (the empty
    [dirname]) or the root, it is listed, or some file lies under it. *)
Definition dir_exists (w : world) (d : string) : bool :=
  all_sep d
  || bool_decide (d ∈ dirs w)
  || existsb (λ p, bool_decide (d ∈ ancestors p))
             (map fst (map_to_list (files w))).

Definition M (A : Type) : Type := world → (exn + A) * world.

Definition ret {A} (a : A) : M A := λ w, (inr a, w).

Definition bind {A B} (m : M A) (k : A → M B) : M B :=
  λ w, match m w with
       | (inl e, w') => (inl e, w')
       | (inr a, w') => k a w'
       end.

(** [open(path, 'r')]: raises when there is no such file. *)
Definition open_r (path : string) : M unit :=
  λ w, match files w !! path with
       | None => (inl (FileNotFoundError path), w)
       | Some _ => (inr tt, w)
       end.

(** [open(path, 'w')]: creates the file, or empties it when it exists;
    raises when the directory of the path does not exist. *)
Definition open_w (path : string) : M unit :=
  λ w, if dir_exists w (dirname path) then
         (inr tt, {| files := <[path := ""]> (files w);
                     dirs := dirs w;
                     stdout := stdout w |})
       else (inl (FileNotFoundError path), w).

(** What iterating over an open file reads: the text the store holds for
    the path at that moment. *)
Definition read (path : string) : M string :=
  λ w, (inr (default "" (files w !! path)), w).

(** What the [write] calls on an open file amount to: [text] appended. *)
Definition write (path text : string) : M unit :=
  λ w, (inr tt,
        {| files := <[path := default "" (files w !! path) +:+ text]> (files w);
           dirs := dirs w;
           stdout := stdout w |}).

(** [print(s)] *)
Definition print (s : string) : M unit :=
  λ w, (inr tt, {| files := files w;
                   dirs := dirs w;
                   stdout := stdout w +:+ (s +:+ Py.nl) |}).

(** [for x in xs: body(x)] *)
Fixpoint for_each {A} (xs : list A) (body : A → M unit) : M unit :=
  match xs with
  | [] => ret tt
  | x :: xs' => bind (body x) (λ _, for_each xs' body)
  end.

End IO.

Declare Scope io_scope.
Delimit Scope io_scope with io.
Notation "x <- m ;; k" := (IO.bind m (λ x, k))
  (at level 100, m at next level, right associativity) : io_scope.
Notation "m ;; k" := (IO.bind m (λ _, k))
  (at level 100, right associativity) : io_scope.

(** [os.path.join(a, b)] of [posixpath]. *)
Definition startswith_sep (b : string) : bool :=
  match b with
  | String c _ => Ascii.eqb c "/"
  | EmptyString => false
  end.

Fixpoint endswith_sep (a : string) : bool :=
  match a with
  | EmptyString => false
  | String c EmptyString => Ascii.eqb c "/"
  | String _ a' => endswith_sep a'
  end.

Definition path_join (a b : string) : string :=
  if startswith_sep b then b
  else if negb (Py.truthy a) || endswith_sep a then a +:+ b
  else a +:+ "/" +:+ b.

(** [load_blocklist(blocklist_path)], on the path. *)
Definition load_blocklist_path (blocklist_path : string) : IO.M (gset string) :=
  (IO.open_r blocklist_path ;;
   text <- IO.read blocklist_path ;;
   IO.ret (load_blocklist text))%io.

(** [filter_wordlist(input_path, output_path, blocked_words)], on the
    paths: the input is opened first, then the output, and the lines are
    read once both are open. *)
Definition filter_wordlist_paths (input_path output_path : string)
    (blocked_words : gset string) : IO.M (nat * nat * list string) :=
  (IO.open_r input_path ;;
   IO.open_w output_path ;;
   text <- IO.read input_path ;;
   let st := filter_wordlist text blocked_words in
   IO.write output_path (outfile st) ;;
   IO.ret (kept_count st, removed_count st, removed_words st))%io.

(** [main()]; [script_dir] is the absolute directory of the script. *)
Definition main (script_dir : string) : IO.M unit :=
  let blocklist_path := path_join script_dir "blocklist.txt" in
  let input_path := path_join script_dir "all.txt" in
  let output_path := path_join script_dir "all_filtered.txt" in
  (IO.print "Loading blocklist..." ;;
   blocked_words <- load_blocklist_path blocklist_path ;;
   IO.print ("Loaded " +:+ pretty (size blocked_words)
             +:+ " blocked single-words") ;;
   IO.print (Py.nl +:+ "Filtering wordlist...") ;;
   r <- filter_wordlist_paths input_path output_path blocked_words ;;
   let '(kept, removed, removed_words) := r in
   IO.print (Py.nl +:+ "--- Removed Words ---") ;;
   IO.for_each removed_words (λ w, IO.print ("  " +:+ w)) ;;
   IO.print (Py.nl +:+ "--- Summary ---") ;;
   IO.print ("Words kept: " +:+ pretty kept) ;;
   IO.print ("Words removed: " +:+ pretty removed) ;;
   IO.print ("Output written to: " +:+ output_path))%io.

(** * Facts about the built-ins *)

Section PyFacts.

Import Py.

Lemma isspace_LF : isspace LF = true.
Proof. reflexivity. Qed.

Lemma isspace_SP : isspace SP = true.
Proof. reflexivity. Qed.

Lemma lower_char_idemp c : lower_char (lower_char c) = lower_char c.
Proof. destruct c as [[] [] [] [] [] [] [] []]; reflexivity. Qed.

Lemma lower_idemp s : lower (lower s) = lower s.
Proof.
  induction s as [|c s IH]; simpl; [done|].
  by rewrite lower_char_idemp, IH.
Qed.

Lemma app_nil_r_str (s : string) : s +:+ "" = s.
Proof. induction s; simpl; congruence. Qed.

Lemma app_assoc_str (s t u : string) : (s +:+ t) +:+ u = s +:+ (t +:+ u).
Proof. induction s; simpl; congruence. Qed.

(** *** [lstrip] and [rstrip] *)

Lemma lstrip_idemp s : lstrip (lstrip s) = lstrip s.
Proof.
  induction s as [|c s IH]; simpl; [done|].
  destruct (isspace c) eqn:Hc; [done|]. simpl. by rewrite Hc.
Qed.

Lemma rstrip_cons c s :
  rstrip (String c s) = String c (rstrip s) ∨
  (rstrip (String c s) = "" ∧ rstrip s = "" ∧ isspace c = true).
Proof.
  simpl. destruct (rstrip s) eqn:Hr; [|by left].
  destruct (isspace c); [by right | by left].
Qed.

Lemma rstrip_idemp s : rstrip (rstrip s) = rstrip s.
Proof.
  induction s as [|c s IH]; [done|].
  destruct (rstrip_cons c s) as [E|(E & _ & _)]; rewrite E; [|done].
  simpl in E |- *. rewrite IH.
  destruct (rstrip s); [|done].
  destruct (isspace c); [discriminate | done].
Qed.

Lemma rstrip_app_space s c :
  isspace c = true → rstrip (s +:+ String c "") = rstrip s.
Proof.
  intros Hc. induction s as [|d s IH]; simpl; [by rewrite Hc|].
  by rewrite IH.
Qed.

Lemma lstrip_rstrip s : lstrip (rstrip s) = rstrip (lstrip s).
Proof.
  induction s as [|c s IH]; [done|].
  destruct (isspace c) eqn:Hc.
  - change (lstrip (String c s)) with (if isspace c then lstrip s else String c s).
    rewrite Hc, <- IH.
    destruct (rstrip_cons c s) as [E|(E & E' & _)]; rewrite E; simpl.
    + by rewrite Hc.
    + by rewrite E'.
  - change (lstrip (String c s)) with (if isspace c then lstrip s else String c s).
    rewrite Hc.
    destruct (rstrip_cons c s) as [E|(_ & _ & E)]; [|congruence].
    rewrite E. simpl. by rewrite Hc.
Qed.

Lemma strip_idemp s : strip (strip s) = strip s.
Proof.
  unfold strip. rewrite (lstrip_rstrip (lstrip s)), lstrip_idemp.
  apply rstrip_idemp.
Qed.

Lemma strip_app_space s c :
  isspace c = true → strip (s +:+ String c "") = strip s.
Proof.
  intros Hc. unfold strip. induction s as [|d s IH]; simpl.
  - by rewrite Hc.
  - destruct (isspace d); [done|].
    change (String d (s +:+ String c "")) with (String d s +:+ String c "").
    by apply rstrip_app_space.
Qed.

Lemma strip_nl s : strip (s +:+ nl) = strip s.
Proof. apply strip_app_space, isspace_LF. Qed.

(** [strip] removes a blank prefix and a blank suffix, nothing else. *)

Lemma lstrip_decomp s : ∃ pre, s = pre +:+ lstrip s ∧ blank pre = true.
Proof.
  induction s as [|c s (pre & E & Hpre)]; [by exists ""|].
  simpl. destruct (isspace c) eqn:Hc.
  - exists (String c pre). simpl. rewrite Hc, Hpre. by rewrite <- E.
  - by exists "".
Qed.

Lemma rstrip_decomp s : ∃ post, s = rstrip s +:+ post ∧ blank post = true.
Proof.
  induction s as [|c s (post & E & Hpost)]; [by exists ""|].
  destruct (rstrip_cons c s) as [R|(R & R' & Hc)]; rewrite R.
  - exists post. simpl. by rewrite <- E.
  - exists (String c post). rewrite R' in E. simpl in *.
    rewrite Hc, Hpost. by rewrite <- E.
Qed.

Lemma strip_decomp s :
  ∃ pre post, s = pre +:+ (strip s +:+ post)
              ∧ blank pre = true ∧ blank post = true.
Proof.
  destruct (lstrip_decomp s) as (pre & E1 & H1).
  destruct (rstrip_decomp (lstrip s)) as (post & E2 & H2).
  exists pre, post. unfold strip. by rewrite <- E2.
Qed.

Lemma blank_strip s : blank s = true → strip s = "".
Proof.
  unfold strip. induction s as [|c s IH]; simpl; [done|].
  intros [Hc Hs]%andb_prop. rewrite Hc. auto.
Qed.

(** The first and the last character of a stripped string are not white
    space. *)

Lemma lstrip_head s c r : lstrip s = String c r → isspace c = false.
Proof.
  induction s as [|d s IH]; simpl; [done|].
  destruct (isspace d) eqn:Hd; [done|]. congruence.
Qed.

Lemma rstrip_head s c r : rstrip s = String c r → ∃ s', s = String c s'.
Proof.
  destruct s as [|d s]; [done|].
  destruct (rstrip_cons d s) as [R|(R & _)]; rewrite R; [|done].
  intros [= -> _]. eauto.
Qed.

Lemma rstrip_last s i c :
  rstrip s = i +:+ String c "" → isspace c = false.
Proof.
  revert i. induction s as [|d s IH]; intros i.
  - by destruct i.
  - simpl. destruct (rstrip s) as [|e r] eqn:R.
    + destruct (isspace d) eqn:Hd; [by destruct i|].
      destruct i as [|? [|? ?]]; simpl; congruence.
    + destruct i as [|d' i]; simpl; [congruence|].
      intros [= -> E]. by apply (IH i).
Qed.

Lemma strip_head s c r : strip s = String c r → isspace c = false.
Proof.
  unfold strip. intros [s' E]%rstrip_head. by apply lstrip_head in E.
Qed.

Lemma strip_last s i c : strip s = i +:+ String c "" → isspace c = false.
Proof. apply rstrip_last. Qed.

(** *** The character test [in] *)

Lemma contains_app c s t :
  contains c (s +:+ t) = contains c s || contains c t.
Proof.
  induction s as [|d s IH]; simpl; [done|]. by destruct (Ascii.eqb c d).
Qed.

Lemma contains_strip c s : contains c s = false → contains c (strip s) = false.
Proof.
  destruct (strip_decomp s) as (pre & post & E & _). intros H.
  rewrite E, !contains_app in H.
  by destruct (contains c pre), (contains c (strip s)).
Qed.

Lemma contains_lower_SP s : contains SP (lower s) = contains SP s.
Proof.
  induction s as [|c s IH]; simpl; [done|]. rewrite IH. f_equal.
  destruct c as [[] [] [] [] [] [] [] []]; reflexivity.
Qed.

(** *** Lines *)

Lemma chomp_nl w : chomp (w +:+ nl) = w.
Proof.
  induction w as [|c w IH]; simpl; [done|].
  rewrite IH. by destruct w.
Qed.

Lemma chomp_cases l : l = chomp l ∨ l = chomp l +:+ nl.
Proof.
  induction l as [|c l IH]; [by left|].
  destruct l as [|d l].
  - simpl. destruct (Ascii.eqb_spec c LF) as [->|]; [by right | by left].
  - change (chomp (String c (String d l)))
      with (String c (chomp (String d l))).
    destruct IH as [IH|IH]; [left | right].
    + by rewrite <- IH.
    + change (String c (chomp (String d l)) +:+ nl)
        with (String c (chomp (String d l) +:+ nl)).
      by rewrite <- IH.
Qed.

Lemma strip_chomp l : strip (chomp l) = strip l.
Proof.
  destruct (chomp_cases l) as [E|E]; rewrite E at 2; [done|].
  by rewrite strip_nl.
Qed.

Lemma readlines_shape text :
  Forall (λ l, ∃ body, contains LF body = false ∧ (l = body ∨ l = body +:+ nl))
         (readlines text).
Proof.
  induction text as [|c text IH]; cbn [readlines]; [constructor|].
  destruct (Ascii.eqb_spec c LF) as [->|Hc].
  - constructor; [|done]. exists "". by split; [|right].
  - assert (Ascii.eqb LF c = false) as Hc'
      by (apply Ascii.eqb_neq; congruence).
    destruct (readlines text) as [|l ls].
    + repeat constructor. exists (String c "").
      cbn [contains]. rewrite Hc'. eauto.
    + inversion IH as [|? ? (body & Hb & E) Hls]; subst.
      constructor; [|done]. exists (String c body).
      cbn [contains]. rewrite Hc', Hb. split; [done|].
      destruct E as [->| ->]; eauto.
Qed.

Lemma strip_line_no_LF text l :
  l ∈ readlines text → contains LF (strip l) = false.
Proof.
  intros Hl. pose proof (readlines_shape text) as H.
  rewrite Forall_forall in H.
  destruct (H l Hl) as (body & Hb & [->| ->]).
  - by apply contains_strip.
  - rewrite strip_nl. by apply contains_strip.
Qed.

Lemma readlines_line w rest :
  contains LF w = false →
  readlines (w +:+ nl +:+ rest) = (w +:+ nl) :: readlines rest.
Proof.
  induction w as [|c w IH]; [done|].
  cbn [contains String.append readlines].
  destruct (Ascii.eqb_spec LF c) as [|Hc]; [done|]. intros Hw.
  rewrite (IH Hw).
  destruct (Ascii.eqb_spec c LF) as [|_]; [congruence | done].
Qed.

Lemma readlines_unlines ws :
  Forall (λ w, contains LF w = false) ws →
  readlines (unlines ws) = map (λ w, w +:+ nl) ws.
Proof.
  induction 1 as [|w ws Hw _ IH]; cbn [unlines map]; [done|].
  by rewrite readlines_line, IH.
Qed.

Lemma file_lines_unlines ws :
  Forall (λ w, contains LF w = false) ws → file_lines (unlines ws) = ws.
Proof.
  intros H. unfold file_lines. rewrite (readlines_unlines _ H).
  clear H. induction ws as [|w ws IH]; simpl; [done|].
  by rewrite chomp_nl, IH.
Qed.

End PyFacts.

(** * Facts about the script *)

Section ScriptFacts.

Import Py.

Implicit Types (blocked_words : gset string) (st : filter_state).

(** *** [load_blocklist] *)

Lemma truthy_nonempty s : truthy s = true ↔ s ≠ "".
Proof. by destruct s. Qed.

Lemma elem_of_load_blocklist_line blocked_words line w :
  w ∈ load_blocklist_line blocked_words line ↔
  w ∈ blocked_words
  ∨ (w = lower (strip line) ∧ w ≠ "" ∧ contains SP w = false).
Proof.
  unfold load_blocklist_line.
  destruct (truthy (lower (strip line))) eqn:Ht.
  - apply truthy_nonempty in Ht.
    destruct (contains SP (lower (strip line))) eqn:Hs; simpl.
    + split; [auto|]. intros [?|(-> & _ & ?)]; [done | congruence].
    + rewrite elem_of_union, elem_of_singleton.
      split; [intros [->|?]; auto | intros [?|(-> & _)]; auto].
  - split; [auto|]. intros [?|(-> & Hne & _)]; [done|].
    apply truthy_nonempty in Hne. congruence.
Qed.

Lemma elem_of_load_fold ls blocked_words w :
  w ∈ fold_left load_blocklist_line ls blocked_words ↔
  w ∈ blocked_words
  ∨ ∃ line, line ∈ ls ∧ w = lower (strip line) ∧ w ≠ ""
            ∧ contains SP w = false.
Proof.
  revert blocked_words.
  induction ls as [|l ls IH]; intros blocked_words; simpl.
  - split; [auto|]. by intros [?|(? & ?%elem_of_nil & _)].
  - rewrite IH, elem_of_load_blocklist_line. split.
    + intros [[?|?]|(line & ? & ?)]; [by left| |].
      * right. exists l. split; [left|done].
      * right. exists line. split; [by right|done].
    + intros [?|(line & [->|?]%elem_of_cons & ?)]; [by left; left| |].
      * by left; right.
      * right. by exists line.
Qed.

Lemma elem_of_load_blocklist blocklist w :
  w ∈ load_blocklist blocklist ↔
  ∃ line, line ∈ readlines blocklist ∧ w = lower (strip line) ∧ w ≠ ""
          ∧ contains SP w = false.
Proof.
  unfold load_blocklist. rewrite elem_of_load_fold. split; [|auto].
  by intros [?%not_elem_of_empty|?].
Qed.

Lemma load_blocklist_line_phrase blocked_words entry :
  contains SP (strip entry) = true →
  load_blocklist_line blocked_words entry = blocked_words.
Proof.
  intros H. unfold load_blocklist_line.
  rewrite contains_lower_SP, H. simpl. by destruct (truthy _).
Qed.

(** *** [filter_wordlist] *)

(** The loop of [filter_wordlist], started in any state, told in terms
    of the two sublists of the words it reads. *)
Lemma filter_loop blocked_words ls st :
  let ws := map strip ls in
  fold_left (filter_line blocked_words) ls st =
  {| kept_count :=
       kept_count st + length (filter (λ w, lower w ∉ blocked_words) ws);
     removed_count :=
       removed_count st + length (filter (λ w, lower w ∈ blocked_words) ws);
     removed_words :=
       removed_words st ++ filter (λ w, lower w ∈ blocked_words) ws;
     outfile :=
       outfile st +:+ unlines (filter (λ w, lower w ∉ blocked_words) ws) |}.
Proof.
  revert st. induction ls as [|l ls IH]; intros st; cbn [map fold_left].
  - rewrite !filter_nil. cbn [length unlines].
    rewrite !Nat.add_0_r, app_nil_r, app_nil_r_str. by destruct st.
  - cbv zeta in IH. rewrite IH. unfold filter_line.
    rewrite !(filter_cons _ (strip l)).
    case_bool_decide as Hk.
    + rewrite (decide_True _ _ Hk), (decide_False _ _ Hk).
      cbn [kept_count removed_count removed_words outfile length unlines].
      rewrite !app_assoc_str. f_equal. lia.
    + rewrite (decide_True _ _ Hk), (decide_False (P := _ ∉ _)) by auto.
      cbn [kept_count removed_count removed_words outfile length unlines].
      rewrite <- app_assoc. f_equal. lia.
Qed.

Lemma filter_wordlist_unfold infile blocked_words :
  filter_wordlist infile blocked_words =
  {| kept_count :=
       length (filter (λ w, lower w ∉ blocked_words) (input_words infile));
     removed_count :=
       length (filter (λ w, lower w ∈ blocked_words) (input_words infile));
     removed_words :=
       filter (λ w, lower w ∈ blocked_words) (input_words infile);
     outfile :=
       unlines (filter (λ w, lower w ∉ blocked_words) (input_words infile)) |}.
Proof. unfold filter_wordlist. by rewrite filter_loop. Qed.

Lemma input_words_no_LF infile :
  Forall (λ w, contains LF w = false) (input_words infile).
Proof.
  apply Forall_forall. intros w (l & -> & Hl)%list_elem_of_fmap.
  by apply (strip_line_no_LF infile).
Qed.

Lemma kept_words_no_LF infile blocked_words :
  Forall (λ w, contains LF w = false)
         (filter (λ w, lower w ∉ blocked_words) (input_words infile)).
Proof.
  apply Forall_forall. intros w [_ Hw]%list_elem_of_filter.
  revert w Hw. apply Forall_forall, input_words_no_LF.
Qed.

(** The lines of the output file are the kept words. *)
Lemma output_lines infile blocked_words :
  file_lines (outfile (filter_wordlist infile blocked_words)) =
  filter (λ w, lower w ∉ blocked_words) (input_words infile).
Proof.
  rewrite filter_wordlist_unfold. cbn [outfile].
  apply file_lines_unlines, kept_words_no_LF.
Qed.

Lemma input_words_file_lines infile :
  input_words infile = map strip (file_lines infile).
Proof.
  unfold input_words, file_lines. rewrite map_map.
  apply map_ext. intros l. by rewrite strip_chomp.
Qed.

Lemma filter_map_strip blocked_words ls :
  filter (λ w, lower w ∉ blocked_words) (map strip ls)
  = map strip (filter (λ l, lower (strip l) ∉ blocked_words) ls).
Proof.
  induction ls as [|l ls IH]; [done|]. cbn [map].
  rewrite !filter_cons, IH.
  by destruct (decide (lower (strip l) ∉ blocked_words)).
Qed.

Lemma removed_filter_map_strip blocked_words ls :
  filter (λ w, lower w ∈ blocked_words) (map strip ls)
  = map strip (filter (λ l, lower (strip l) ∈ blocked_words) ls).
Proof.
  induction ls as [|l ls IH]; [done|]. cbn [map].
  rewrite !filter_cons, IH.
  by destruct (decide (lower (strip l) ∈ blocked_words)).
Qed.

Lemma map_strip_clean (ls : list string) :
  (∀ l, l ∈ ls → strip l = l) → map strip ls = ls.
Proof.
  induction ls as [|l ls IH]; intros H; [done|]. cbn [map].
  rewrite H by left. f_equal. apply IH. intros l' Hl'. apply H. by right.
Qed.

Lemma map_strip_spec_word (ls : list string) :
  (∀ l, l ∈ ls → lstrip l = l) → map strip ls = map spec_word ls.
Proof.
  induction ls as [|l ls IH]; intros H; [done|]. cbn [map].
  unfold strip at 1, spec_word at 1. rewrite H by left.
  f_equal. apply IH. intros l' Hl'. apply H. by right.
Qed.

Lemma length_filter_split blocked_words (ws : list string) :
  length (filter (λ w, lower w ∉ blocked_words) ws)
  + length (filter (λ w, lower w ∈ blocked_words) ws) = length ws.
Proof.
  induction ws as [|w ws IH]; [done|]. rewrite !filter_cons.
  destruct (decide (lower w ∈ blocked_words)) as [Hin|Hout].
  - rewrite decide_False by auto. cbn [length]. lia.
  - rewrite decide_True by done. cbn [length]. lia.
Qed.

Lemma length_readlines_unlines ws :
  Forall (λ w, contains LF w = false) ws →
  length (readlines (unlines ws)) = length ws.
Proof. intros H. by rewrite readlines_unlines, length_map. Qed.

(** Reading back a file of stripped words yields those words. *)
Lemma input_words_unlines ws :
  Forall (λ w, contains LF w = false) ws →
  Forall (λ w, strip w = w) ws →
  input_words (unlines ws) = ws.
Proof.
  intros Hlf Hst. unfold input_words. rewrite readlines_unlines by done.
  rewrite map_map. clear Hlf.
  induction Hst as [|w ws Hw _ IH]; cbn [map]; [done|].
  by rewrite strip_nl, Hw, IH.
Qed.

Lemma kept_words_stripped infile blocked_words :
  Forall (λ w, strip w = w)
         (filter (λ w, lower w ∉ blocked_words) (input_words infile)).
Proof.
  apply Forall_forall.
  intros w [_ (l & -> & _)%list_elem_of_fmap]%list_elem_of_filter.
  apply strip_idemp.
Qed.

End ScriptFacts.

(** * The properties of the specification *)

Section Properties.

Import Py.

Implicit Types (blocked_words : gset string) (infile blocklist : string).

(** C1 fails as stated, the word of a line being the line without its
    trailing white space: the indented line [ cat] is not blocked by the
    blocklist [dog], yet the output holds [cat], not the word [ cat]. *)
Lemma kept_word_not_unchanged :
  ¬ (∀ line,
       line ∈ readlines (unlines [" cat"; "emu"]) →
       lower (spec_word line) ∉ load_blocklist (unlines ["dog"]) →
       spec_word line
       ∈ file_lines (outfile (filter_wordlist
                                (unlines [" cat"; "emu"])
                                (load_blocklist (unlines ["dog"]))))).
Proof.
  intros H. specialize (H (" cat" +:+ nl)).
  assert (file_lines (outfile (filter_wordlist
                                 (unlines [" cat"; "emu"])
                                 (load_blocklist (unlines ["dog"]))))
          = ["cat"; "emu"]) as E by (vm_compute; reflexivity).
  rewrite E in H.
  assert (spec_word (" cat" +:+ nl) ∈ ["cat"; "emu"]) as Hin.
  { apply H.
    - vm_compute. left.
    - apply (bool_decide_unpack _). vm_compute. exact I. }
  vm_compute in Hin. set_unfold in Hin.
  destruct Hin as [|[|[]]]; discriminate.
Qed.

(** The same line is removed by the blocklist [cat], though the lowercase
    form of [ cat] is not in the set. *)
Example indented_word_removed :
  let blocked_words := load_blocklist (unlines ["cat"]) in
  let st := filter_wordlist (unlines [" cat"; "emu"]) blocked_words in
  (lower (spec_word (" cat" +:+ nl)) ∉ blocked_words)
  ∧ removed_words st = ["cat"]
  ∧ file_lines (outfile st) = ["emu"].
Proof.
  cbv zeta. split; [|by vm_compute].
  apply (bool_decide_unpack _). vm_compute. exact I.
Qed.

(** C1, amended. For every input word list and every blocklist set, the
    lines of the output file are exactly the input words, an input word
    being the line stripped of its leading and trailing white space, whose
    lowercase form is not in the set, unchanged and in their input order;
    hence a kept word stands in the output at the rank it has among the
    kept words.  When no input line has leading white space, the word is
    the line without its trailing white space, as the claim has it. *)
Theorem kept_words_in_output infile blocked_words :
  let out := file_lines (outfile (filter_wordlist infile blocked_words)) in
  out = filter (λ w, lower w ∉ blocked_words) (input_words infile)
  ∧ (∀ before line after,
       readlines infile = before ++ line :: after →
       lower (strip line) ∉ blocked_words →
       out !! length (filter (λ w, lower w ∉ blocked_words)
                             (map strip before))
       = Some (strip line))
  ∧ ((∀ line, line ∈ readlines infile → lstrip line = line) →
     out = filter (λ w, lower w ∉ blocked_words)
                  (map spec_word (readlines infile))).
Proof.
  cbv zeta. rewrite output_lines. split; [done|]. split.
  - intros before line after E Hk. unfold input_words.
    rewrite E, map_app, filter_app. cbn [map].
    rewrite filter_cons_True by done. apply list_lookup_middle. done.
  - intros Hclean. unfold input_words. by rewrite map_strip_spec_word.
Qed.

Lemma kept_words_in_output_witness :
  let infile := unlines ["cat"; "Dog"; "  Emu "] in
  let infile' := unlines ["cat"; "Dog "; "emu"] in
  let blocked_words := load_blocklist (unlines ["cat"; "bat"]) in
  readlines infile = ["cat" +:+ nl; "Dog" +:+ nl] ++ [("  Emu " +:+ nl)]
  ∧ (lower (strip ("  Emu " +:+ nl)) ∉ blocked_words)
  ∧ file_lines (outfile (filter_wordlist infile blocked_words)) !! 1
    = Some "Emu"
  ∧ (∀ line, line ∈ readlines infile' → lstrip line = line)
  ∧ file_lines (outfile (filter_wordlist infile' blocked_words))
    = filter (λ w, lower w ∉ blocked_words)
             (map spec_word (readlines infile')).
Proof.
  cbv zeta.
  assert (lower (strip ("  Emu " +:+ nl))
          ∉ load_blocklist (unlines ["cat"; "bat"])) as Hk
    by (apply (bool_decide_unpack _); vm_compute; exact I).
  assert (∀ line, line ∈ readlines (unlines ["cat"; "Dog "; "emu"]) →
                  lstrip line = line) as Hclean.
  { intros line Hline. vm_compute in Hline. set_unfold in Hline.
    by destruct Hline as [->|[->|[->|[]]]]. }
  split; [reflexivity|]. split; [exact Hk|].
  split; [|split; [exact Hclean|]].
  - exact (proj1 (proj2 (kept_words_in_output
                           (unlines ["cat"; "Dog"; "  Emu "])
                           (load_blocklist (unlines ["cat"; "bat"]))))
                 ["cat" +:+ nl; "Dog" +:+ nl] ("  Emu " +:+ nl) []
                 eq_refl Hk).
  - exact (proj2 (proj2 (kept_words_in_output
                           (unlines ["cat"; "Dog "; "emu"])
                           (load_blocklist (unlines ["cat"; "bat"]))))
                 Hclean).
Defined.

(** C2. For every input word list and every blocklist set, the removed
    words are the input words whose lowercase form is in the set, in their
    original casing and in input order; the removed count is their number;
    none of them is a line of the output file.  In particular, when the
    blocklist file has the entry [Apple], the input entries [apple],
    [APPLE] and [Apple] are removed. *)
Theorem blocked_words_removed infile blocked_words :
  let st := filter_wordlist infile blocked_words in
  removed_words st = filter (λ w, lower w ∈ blocked_words) (input_words infile)
  ∧ removed_count st = length (removed_words st)
  ∧ (∀ w, lower w ∈ blocked_words → w ∉ file_lines (outfile st))
  ∧ (∀ line, line ∈ readlines infile →
       lower (strip line) ∈ blocked_words →
       strip line ∈ removed_words st)
  ∧ (∀ blocklist entry line,
       blocked_words = load_blocklist blocklist →
       entry ∈ readlines blocklist → strip entry = "Apple" →
       line ∈ readlines infile →
       strip line ∈ ["apple"; "APPLE"; "Apple"] →
       strip line ∈ removed_words st
       ∧ strip line ∉ file_lines (outfile st)).
Proof.
  cbv zeta. rewrite output_lines, filter_wordlist_unfold.
  cbn [removed_words removed_count].
  assert (∀ w, lower w ∈ blocked_words →
               w ∉ filter (λ w, lower w ∉ blocked_words) (input_words infile))
    as Habsent.
  { intros w Hw [Hk _]%list_elem_of_filter. by apply Hk. }
  assert (∀ line, line ∈ readlines infile →
                  lower (strip line) ∈ blocked_words →
                  strip line ∈ filter (λ w, lower w ∈ blocked_words)
                                      (input_words infile))
    as Hpresent.
  { intros line Hl Hb. apply list_elem_of_filter. split; [done|].
    apply list_elem_of_fmap. eauto. }
  split; [done|]. split; [done|]. split; [exact Habsent|].
  split; [exact Hpresent|].
  intros blocklist entry line -> Hentry Hstrip Hline Hword.
  assert (lower (strip line) ∈ load_blocklist blocklist) as Hb.
  { apply elem_of_load_blocklist. exists entry. rewrite Hstrip.
    split; [done|].
    set_unfold in Hword. by destruct Hword as [->|[->|[->|[]]]]. }
  split; [by apply Hpresent | by apply Habsent].
Qed.

Lemma blocked_words_removed_witness :
  let infile := unlines ["apple"; "pear"; "APPLE"; "Apple"] in
  let blocklist := unlines ["Apple"] in
  let st := filter_wordlist infile (load_blocklist blocklist) in
  "Apple" +:+ nl ∈ readlines blocklist
  ∧ strip ("Apple" +:+ nl) = "Apple"
  ∧ "APPLE" +:+ nl ∈ readlines infile
  ∧ strip ("APPLE" +:+ nl) ∈ ["apple"; "APPLE"; "Apple"]
  ∧ strip ("APPLE" +:+ nl) ∈ removed_words st
  ∧ strip ("APPLE" +:+ nl) ∉ file_lines (outfile st).
Proof.
  cbv zeta.
  assert ("Apple" +:+ nl ∈ readlines (unlines ["Apple"])) as H1
    by (vm_compute; left).
  assert ("APPLE" +:+ nl
          ∈ readlines (unlines ["apple"; "pear"; "APPLE"; "Apple"])) as H2
    by (vm_compute; right; right; left).
  assert (strip ("APPLE" +:+ nl) ∈ ["apple"; "APPLE"; "Apple"]) as H3
    by (vm_compute; right; left).
  split; [exact H1|]. split; [reflexivity|]. split; [exact H2|].
  split; [exact H3|].
  exact (proj2 (proj2 (proj2 (proj2
           (blocked_words_removed
              (unlines ["apple"; "pear"; "APPLE"; "Apple"])
              (load_blocklist (unlines ["Apple"]))))))
           (unlines ["Apple"]) ("Apple" +:+ nl) ("APPLE" +:+ nl)
           eq_refl H1 eq_refl H2 H3).
Defined.

(** C3. For every blocklist file, a word is in the loaded set exactly when
    it is the stripped, lowercased form of a line, is not empty and has no
    space; so the set holds only non-empty, lowercase, space-free words,
    a multi-word entry puts nothing in it, and deleting such an entry from
    the file leaves the set, hence every removal, as it was.  With the
    single entry [ball gag] nothing is ever removed, [ball] and [gag]
    included. *)
Theorem blocklist_single_words blocklist :
  let blocked_words := load_blocklist blocklist in
  (∀ w, w ∈ blocked_words ↔
        ∃ line, line ∈ readlines blocklist ∧ w = lower (strip line)
                ∧ w ≠ "" ∧ contains SP w = false)
  ∧ (∀ w, w ∈ blocked_words →
          w ≠ "" ∧ lower w = w ∧ contains SP w = false)
  ∧ (∀ entry, entry ∈ readlines blocklist →
              contains SP (strip entry) = true →
              lower (strip entry) ∉ blocked_words)
  ∧ (∀ before entry after blocklist',
       readlines blocklist = before ++ entry :: after →
       contains SP (strip entry) = true →
       readlines blocklist' = before ++ after →
       load_blocklist blocklist' = blocked_words)
  ∧ (blocklist = unlines ["ball gag"] →
     blocked_words = ∅
     ∧ (∀ infile, removed_words (filter_wordlist infile blocked_words) = [])
     ∧ file_lines (outfile (filter_wordlist (unlines ["ball"; "gag"])
                                            blocked_words))
       = ["ball"; "gag"]).
Proof.
  cbv zeta.
  assert (∀ w, w ∈ load_blocklist blocklist →
               w ≠ "" ∧ lower w = w ∧ contains SP w = false) as Hin.
  { intros w (line & _ & -> & ? & ?)%elem_of_load_blocklist.
    by rewrite lower_idemp. }
  split; [apply elem_of_load_blocklist|]. split; [exact Hin|].
  split; [|split].
  - intros entry _ Hsp (_ & _ & Hno)%Hin.
    rewrite contains_lower_SP in Hno. congruence.
  - intros before entry after blocklist' E Hsp E'. unfold load_blocklist.
    rewrite E, E', !fold_left_app. cbn [fold_left].
    by rewrite load_blocklist_line_phrase.
  - intros ->.
    assert (load_blocklist (unlines ["ball gag"]) = ∅) as ->
      by (vm_compute; reflexivity).
    split; [done|]. split; [|by vm_compute].
    intros infile. rewrite filter_wordlist_unfold. cbn [removed_words].
    induction (input_words infile) as [|w ws IH]; [done|].
    rewrite filter_cons_False; [done|]. apply not_elem_of_empty.
Qed.

Lemma blocklist_single_words_witness :
  let blocklist := unlines ["cat"; "ball gag"; "Dog"] in
  let blocklist' := unlines ["cat"; "Dog"] in
  "ball gag" +:+ nl ∈ readlines blocklist
  ∧ contains SP (strip ("ball gag" +:+ nl)) = true
  ∧ readlines blocklist
    = ["cat" +:+ nl] ++ ("ball gag" +:+ nl) :: ["Dog" +:+ nl]
  ∧ readlines blocklist' = ["cat" +:+ nl] ++ ["Dog" +:+ nl]
  ∧ (lower (strip ("ball gag" +:+ nl)) ∉ load_blocklist blocklist)
  ∧ load_blocklist blocklist' = load_blocklist blocklist
  ∧ "dog" ∈ load_blocklist blocklist
  ∧ load_blocklist (unlines ["ball gag"]) = ∅.
Proof.
  cbv zeta.
  pose proof (blocklist_single_words (unlines ["cat"; "ball gag"; "Dog"]))
    as (Hiff & _ & Hphrase & Hdel & _).
  pose proof (blocklist_single_words (unlines ["ball gag"]))
    as (_ & _ & _ & _ & Hball).
  assert ("ball gag" +:+ nl
          ∈ readlines (unlines ["cat"; "ball gag"; "Dog"])) as H1
    by (vm_compute; right; left).
  split; [exact H1|]. split; [reflexivity|]. split; [reflexivity|].
  split; [reflexivity|].
  split; [exact (Hphrase _ H1 eq_refl)|].
  split; [exact (Hdel ["cat" +:+ nl] ("ball gag" +:+ nl) ["Dog" +:+ nl]
                      (unlines ["cat"; "Dog"]) eq_refl eq_refl eq_refl)|].
  split; [|exact (proj1 (Hball eq_refl))].
  apply Hiff. exists ("Dog" +:+ nl).
  split; [vm_compute; right; right; left|]. by repeat split.
Defined.

(** C4 fails as stated: an input line with leading white space is written
    without it, so the output line is not a line of the input. *)
Lemma output_line_not_verbatim :
  ¬ (file_lines (outfile (filter_wordlist (unlines [" cat"; "dog"])
                                          (load_blocklist (unlines ["dog"]))))
     `sublist_of` file_lines (unlines [" cat"; "dog"])).
Proof.
  assert (file_lines (outfile (filter_wordlist (unlines [" cat"; "dog"])
                                 (load_blocklist (unlines ["dog"]))))
          = ["cat"]) as -> by (vm_compute; reflexivity).
  assert (file_lines (unlines [" cat"; "dog"]) = [" cat"; "dog"]) as ->
    by (vm_compute; reflexivity).
  intros H%sublist_subseteq. specialize (H "cat").
  set_unfold in H. destruct H as [|[|[]]]; [by left|discriminate..].
Qed.

(** C4, amended. For every input file and blocklist set, the sequence of
    lines of the output file is the sequence of input lines, each stripped
    of its leading and trailing white space, in the same order, with
    exactly the removed lines missing, a line being removed when its
    stripped lowercase form is in the set; so it is a subsequence of the
    stripped input lines.  When no input line has such white space, the
    output lines are the input lines verbatim, minus the removed ones. *)
Theorem output_sublist_of_stripped_input infile blocked_words :
  let st := filter_wordlist infile blocked_words in
  let out := file_lines (outfile st) in
  out = map strip (filter (λ line, lower (strip line) ∉ blocked_words)
                          (file_lines infile))
  ∧ removed_words st
    = map strip (filter (λ line, lower (strip line) ∈ blocked_words)
                        (file_lines infile))
  ∧ out `sublist_of` map strip (file_lines infile)
  ∧ ((∀ line, line ∈ file_lines infile → strip line = line) →
     out = filter (λ line, lower (strip line) ∉ blocked_words)
                  (file_lines infile)
     ∧ out `sublist_of` file_lines infile).
Proof.
  cbv zeta. rewrite output_lines, filter_wordlist_unfold.
  cbn [removed_words]. rewrite input_words_file_lines.
  rewrite filter_map_strip, removed_filter_map_strip.
  split; [done|]. split; [done|]. split.
  - rewrite <- filter_map_strip. apply sublist_filter.
  - intros Hclean.
    rewrite map_strip_clean.
    + split; [done|]. apply sublist_filter.
    + intros l [_ Hl]%list_elem_of_filter. by apply Hclean.
Qed.

Lemma output_sublist_of_stripped_input_witness :
  let infile := unlines ["cat"; "Dog"; "emu"] in
  let blocked_words := load_blocklist (unlines ["dog"]) in
  (∀ line, line ∈ file_lines infile → strip line = line)
  ∧ file_lines (outfile (filter_wordlist infile blocked_words))
    = filter (λ line, lower (strip line) ∉ blocked_words) (file_lines infile)
  ∧ file_lines (outfile (filter_wordlist infile blocked_words))
    `sublist_of` file_lines infile.
Proof.
  cbv zeta.
  assert (∀ line, line ∈ file_lines (unlines ["cat"; "Dog"; "emu"]) →
                  strip line = line) as Hclean.
  { intros line Hline. vm_compute in Hline. set_unfold in Hline.
    by destruct Hline as [->|[->|[->|[]]]]. }
  split; [exact Hclean|].
  exact (proj2 (proj2 (proj2 (output_sublist_of_stripped_input
                                (unlines ["cat"; "Dog"; "emu"])
                                (load_blocklist (unlines ["dog"])))))
               Hclean).
Defined.

(** C5 fails as stated: on a line with leading white space the filter
    does not write the word the specification describes. *)
Lemma word_differs_from_spec_word :
  outfile (filter_line (load_blocklist (unlines ["dog"])) filter_init
                       (" Cat" +:+ nl))
  ≠ outfile (spec_filter_line (load_blocklist (unlines ["dog"])) filter_init
                              (" Cat" +:+ nl)).
Proof. vm_compute. discriminate. Qed.

Example word_on_indented_line :
  let blocked_words := load_blocklist (unlines ["dog"]) in
  let line := " Cat" +:+ nl in
  strip line = "Cat" ∧ spec_word line = " Cat"
  ∧ outfile (filter_line blocked_words filter_init line) = "Cat" +:+ nl.
Proof. by vm_compute. Qed.

(** C5, amended. For every input line, the filter obtains the word by
    stripping both the leading and the trailing white space (line end
    included) from the line, that is the specification's word without its
    leading white space; the word is a verbatim part of the line, so its
    casing is the original one; when the word is kept it is written,
    followed by a newline, to the output.  On a line without leading white
    space the word is the one obtained by stripping the trailing white
    space only. *)
Theorem word_is_stripped_line blocked_words st line :
  let word := strip line in
  let st' := filter_line blocked_words st line in
  word = lstrip (spec_word line)
  ∧ (∃ pre post, line = pre +:+ (word +:+ post)
                 ∧ blank pre = true ∧ blank post = true)
  ∧ (lower word ∉ blocked_words →
     outfile st' = outfile st +:+ (word +:+ nl)
     ∧ kept_count st' = kept_count st + 1
     ∧ removed_count st' = removed_count st
     ∧ removed_words st' = removed_words st)
  ∧ (lstrip line = line →
     word = spec_word line ∧ st' = spec_filter_line blocked_words st line).
Proof.
  cbv zeta. split; [unfold strip, spec_word; by rewrite lstrip_rstrip|].
  split; [apply strip_decomp|]. split.
  - intros Hk. unfold filter_line. by rewrite bool_decide_eq_true_2.
  - intros Hl. unfold filter_line, spec_filter_line, spec_word, strip.
    by rewrite Hl.
Qed.

Lemma word_is_stripped_line_witness :
  let blocked_words := load_blocklist (unlines ["dog"]) in
  let line := "Cat  " +:+ nl in
  (lower (strip line) ∉ blocked_words)
  ∧ lstrip line = line
  ∧ outfile (filter_line blocked_words filter_init line)
    = outfile filter_init +:+ (strip line +:+ nl)
  ∧ strip line = spec_word line.
Proof.
  cbv zeta.
  pose proof (word_is_stripped_line (load_blocklist (unlines ["dog"]))
                filter_init ("Cat  " +:+ nl)) as (_ & _ & Hkept & Hspec).
  assert (lower (strip ("Cat  " +:+ nl)) ∉ load_blocklist (unlines ["dog"]))
    as Hk by (apply (bool_decide_unpack _); vm_compute; exact I).
  split; [exact Hk|]. split; [reflexivity|].
  split; [exact (proj1 (Hkept Hk)) | exact (proj1 (Hspec eq_refl))].
Defined.

(** C6. For every input word list and blocklist set, the kept count plus
    the removed count is the number of input lines, and the output file has
    as many lines as the kept count. *)
Theorem counts_add_up infile blocked_words :
  let st := filter_wordlist infile blocked_words in
  kept_count st + removed_count st = length (readlines infile)
  ∧ length (readlines (outfile st)) = kept_count st.
Proof.
  cbv zeta. rewrite filter_wordlist_unfold.
  cbn [kept_count removed_count outfile]. split.
  - rewrite length_filter_split. unfold input_words. apply length_map.
  - apply length_readlines_unlines, kept_words_no_LF.
Qed.

(** C7. Filtering is idempotent: for every input word list and blocklist
    set, filtering the produced output file again with the same set removes
    nothing and writes an output identical to its input. *)
Theorem filter_idempotent infile blocked_words :
  let st := filter_wordlist infile blocked_words in
  let st' := filter_wordlist (outfile st) blocked_words in
  removed_count st' = 0
  ∧ removed_words st' = []
  ∧ outfile st' = outfile st
  ∧ kept_count st' = kept_count st.
Proof.
  cbv zeta. rewrite (filter_wordlist_unfold infile).
  cbn [outfile kept_count]. rewrite filter_wordlist_unfold.
  cbn [removed_count removed_words outfile kept_count].
  rewrite input_words_unlines
    by (apply kept_words_no_LF || apply kept_words_stripped).
  set (ws := input_words infile).
  assert (filter (λ w, lower w ∈ blocked_words)
                 (filter (λ w, lower w ∉ blocked_words) ws) = []) as ->.
  { induction ws as [|w ws IH]; [done|]. rewrite filter_cons.
    destruct (decide (lower w ∉ blocked_words)); [|done].
    by rewrite filter_cons_False. }
  assert (filter (λ w, lower w ∉ blocked_words)
                 (filter (λ w, lower w ∉ blocked_words) ws)
          = filter (λ w, lower w ∉ blocked_words) ws) as ->.
  { induction ws as [|w ws IH]; [done|]. rewrite filter_cons.
    destruct (decide (lower w ∉ blocked_words)); [|done].
    rewrite filter_cons_True by done. by rewrite IH. }
  done.
Qed.

(** C8. With the blocklist file lines [cat], [ball gag] and the input lines
    [cat], [Cat], [ball gag], [ball], [dog], the output lines are
    [ball gag], [ball], [dog], the removed words are [cat], [Cat], the kept
    count is 3 and the removed count is 2; the run is the same when the
    last line of either file lacks its line end. *)
Theorem scenario_cat_ball_gag :
  let blocklist := unlines ["cat"; "ball gag"] in
  let infile := unlines ["cat"; "Cat"; "ball gag"; "ball"; "dog"] in
  let st := filter_wordlist infile (load_blocklist blocklist) in
  file_lines blocklist = ["cat"; "ball gag"]
  ∧ file_lines infile = ["cat"; "Cat"; "ball gag"; "ball"; "dog"]
  ∧ file_lines (outfile st) = ["ball gag"; "ball"; "dog"]
  ∧ removed_words st = ["cat"; "Cat"]
  ∧ kept_count st = 3
  ∧ removed_count st = 2
  ∧ filter_wordlist (unlines ["cat"; "Cat"; "ball gag"; "ball"] +:+ "dog")
                    (load_blocklist (unlines ["cat"] +:+ "ball gag"))
    = st.
Proof. by vm_compute. Qed.

(** C9. Every line of the output file is the corresponding kept input line
    with both its leading and its trailing white space stripped; in
    particular no output line begins or ends with a white-space
    character. *)
Theorem output_lines_stripped infile blocked_words :
  let out := file_lines (outfile (filter_wordlist infile blocked_words)) in
  out = map strip (filter (λ line, lower (strip line) ∉ blocked_words)
                          (file_lines infile))
  ∧ ∀ l, l ∈ out →
         strip l = l
         ∧ (∀ c rest, l = String c rest → isspace c = false)
         ∧ (∀ init c, l = init +:+ String c "" → isspace c = false).
Proof.
  cbv zeta. rewrite output_lines. split.
  - rewrite input_words_file_lines.
    apply filter_map_strip.
  - intros l Hl.
    assert (strip l = l) as Hs.
    { revert l Hl. apply Forall_forall, kept_words_stripped. }
    split; [done|]. split.
    + intros c rest E. rewrite E in Hs. by apply strip_head in Hs.
    + intros init c E. rewrite E in Hs. by apply strip_last in Hs.
Qed.

Lemma output_lines_stripped_witness :
  let infile := unlines ["  Emu  "; "cat"] in
  let blocked_words := load_blocklist (unlines ["cat"]) in
  "Emu" ∈ file_lines (outfile (filter_wordlist infile blocked_words))
  ∧ strip "Emu" = "Emu"
  ∧ isspace "E" = false ∧ isspace "u" = false.
Proof.
  cbv zeta.
  assert ("Emu" ∈ file_lines
            (outfile (filter_wordlist (unlines ["  Emu  "; "cat"])
                                      (load_blocklist (unlines ["cat"])))))
    as Hin by (vm_compute; left).
  pose proof (proj2 (output_lines_stripped (unlines ["  Emu  "; "cat"])
                       (load_blocklist (unlines ["cat"]))) "Emu" Hin)
    as (Hs & Hhead & Hlast).
  split; [exact Hin|]. split; [exact Hs|].
  split; [exact (Hhead "E"%char "mu" eq_refl)
         | exact (Hlast "Em" "u"%char eq_refl)].
Defined.

(** C10. For every blocklist file, the empty string is not in the loaded
    set; so an empty or all-white-space input line is always kept: the
    filter writes an empty line for it, adds one to the kept count and
    leaves the removed count and the removed words as they are. *)
Theorem blank_lines_kept blocklist :
  let blocked_words := load_blocklist blocklist in
  ("" ∉ blocked_words)
  ∧ (∀ st line, blank line = true →
       filter_line blocked_words st line =
       {| kept_count := kept_count st + 1;
          removed_count := removed_count st;
          removed_words := removed_words st;
          outfile := outfile st +:+ nl |})
  ∧ (∀ infile, "" ∉ removed_words (filter_wordlist infile blocked_words))
  ∧ (∀ infile line, line ∈ readlines infile → blank line = true →
       "" ∈ file_lines (outfile (filter_wordlist infile blocked_words))).
Proof.
  cbv zeta.
  assert ("" ∉ load_blocklist blocklist) as Hempty.
  { by intros (_ & _ & _ & ? & _)%elem_of_load_blocklist. }
  split; [exact Hempty|]. split; [|split].
  - intros st line Hb. unfold filter_line.
    rewrite (blank_strip _ Hb). by rewrite bool_decide_eq_true_2.
  - intros infile. rewrite filter_wordlist_unfold. cbn [removed_words].
    by intros [? _]%list_elem_of_filter.
  - intros infile line Hl Hb. rewrite output_lines.
    apply list_elem_of_filter. split; [exact Hempty|].
    apply list_elem_of_fmap. exists line. by rewrite (blank_strip _ Hb).
Qed.

Lemma blank_lines_kept_witness :
  let blocked_words := load_blocklist (unlines ["cat"; ""; "  "]) in
  let infile := "cat" +:+ nl +:+ "  " +:+ nl +:+ nl in
  blank ("  " +:+ nl) = true
  ∧ "  " +:+ nl ∈ readlines infile
  ∧ outfile (filter_line blocked_words filter_init ("  " +:+ nl)) = nl
  ∧ "" ∈ file_lines (outfile (filter_wordlist infile blocked_words)).
Proof.
  cbv zeta.
  pose proof (blank_lines_kept (unlines ["cat"; ""; "  "]))
    as (_ & Hline & _ & Hfile).
  assert ("  " +:+ nl ∈ readlines ("cat" +:+ nl +:+ "  " +:+ nl +:+ nl))
    as Hin by (vm_compute; right; left).
  split; [reflexivity|]. split; [exact Hin|]. split.
  - by rewrite (Hline filter_init ("  " +:+ nl) eq_refl).
  - exact (Hfile _ _ Hin eq_refl).
Defined.

End Properties.

(** * Further properties of the filter and of the loader *)

Section MoreFacts.

Import Py.

Implicit Types (blocked_words : gset string) (infile blocklist : string).

Lemma readlines_nl_nonempty s : readlines (s +:+ nl) ≠ [].
Proof.
  destruct s as [|c s]; [done|]. cbn [String.append readlines].
  destruct (Ascii.eqb c LF); [done|]. by destruct (readlines (s +:+ nl)).
Qed.

(** Iterating over a text whose first part ends with a line end yields the
    lines of that part, then those of the rest. *)
Lemma readlines_app s t :
  readlines ((s +:+ nl) +:+ t) = readlines (s +:+ nl) ++ readlines t.
Proof.
  induction s as [|c s IH]; [done|].
  cbn [String.append readlines]. rewrite IH.
  destruct (Ascii.eqb c LF); [done|].
  pose proof (readlines_nl_nonempty s).
  by destruct (readlines (s +:+ nl)).
Qed.

Lemma lower_nonempty w : lower w ≠ "" ↔ w ≠ "".
Proof. by destruct w. Qed.

Lemma removed_filter_sublist blocked_words blocked_words' (ws : list string) :
  blocked_words ⊆ blocked_words' →
  filter (λ w, lower w ∈ blocked_words) ws
  `sublist_of` filter (λ w, lower w ∈ blocked_words') ws.
Proof.
  intros Hsub. induction ws as [|w ws IH]; [done|]. rewrite !filter_cons.
  destruct (decide (lower w ∈ blocked_words)) as [Hin|Hout].
  - rewrite decide_True by set_solver. by apply sublist_skip.
  - destruct (decide (lower w ∈ blocked_words')); [by apply sublist_cons|done].
Qed.

Lemma kept_filter_sublist blocked_words blocked_words' (ws : list string) :
  blocked_words ⊆ blocked_words' →
  filter (λ w, lower w ∉ blocked_words') ws
  `sublist_of` filter (λ w, lower w ∉ blocked_words) ws.
Proof.
  intros Hsub. induction ws as [|w ws IH]; [done|]. rewrite !filter_cons.
  destruct (decide (lower w ∉ blocked_words')) as [Hout|Hin].
  - rewrite decide_True by set_solver. by apply sublist_skip.
  - destruct (decide (lower w ∉ blocked_words)); [by apply sublist_cons|done].
Qed.

Lemma filter_none_blocked blocked_words (ws : list string) :
  (∀ w, w ∈ ws → lower w ∉ blocked_words) →
  filter (λ w, lower w ∉ blocked_words) ws = ws
  ∧ filter (λ w, lower w ∈ blocked_words) ws = [].
Proof.
  induction ws as [|w ws IH]; intros H; [done|].
  destruct IH as [IH1 IH2]; [intros; apply H; by right|].
  assert (lower w ∉ blocked_words) as Hw by (apply H; left).
  rewrite filter_cons_True, filter_cons_False by auto.
  by rewrite IH1, IH2.
Qed.

End MoreFacts.

Section MoreProperties.

Import Py.

Implicit Types (blocked_words : gset string) (infile blocklist : string).

(** X1. Every input word ends up in exactly one place: the removed words
    followed by the lines of the output file are a rearrangement of the
    input words; nothing is lost, nothing is made up. *)
Theorem words_partitioned infile blocked_words :
  let st := filter_wordlist infile blocked_words in
  removed_words st ++ file_lines (outfile st) ≡ₚ input_words infile.
Proof.
  cbv zeta. rewrite output_lines, filter_wordlist_unfold.
  cbn [removed_words].
  induction (input_words infile) as [|w ws IH]; [done|].
  rewrite !filter_cons.
  destruct (decide (lower w ∈ blocked_words)) as [Hin|Hout].
  - rewrite decide_False by auto. cbn [app]. by rewrite IH.
  - rewrite decide_True by done.
    rewrite <- Permutation_middle. by rewrite IH.
Qed.

(** X2. The output file is always made of terminated lines: it is the text
    obtained by writing its own lines each followed by a line end, also
    when the last input line had none. *)
Theorem output_lines_terminated infile blocked_words :
  let out := outfile (filter_wordlist infile blocked_words) in
  out = unlines (file_lines out)
  ∧ readlines out = map (λ w, w +:+ nl) (file_lines out).
Proof.
  cbv zeta. rewrite output_lines.
  rewrite filter_wordlist_unfold. cbn [outfile].
  split; [done|]. apply readlines_unlines, kept_words_no_LF.
Qed.

(** X3. The result depends on the input file through its words only: two
    input files whose lines agree once stripped (other indentation, other
    trailing blanks, a missing last line end) give the same counts, the
    same removed words and the same output file. *)
Theorem filter_ignores_layout infile infile' blocked_words :
  input_words infile = input_words infile' →
  filter_wordlist infile blocked_words = filter_wordlist infile' blocked_words.
Proof. intros E. by rewrite !filter_wordlist_unfold, E. Qed.

Lemma filter_ignores_layout_witness :
  let blocked_words := load_blocklist (unlines ["cat"]) in
  input_words ("  Cat " +:+ nl +:+ "dog") = input_words (unlines ["Cat"; "dog"])
  ∧ filter_wordlist ("  Cat " +:+ nl +:+ "dog") blocked_words
    = filter_wordlist (unlines ["Cat"; "dog"]) blocked_words.
Proof.
  cbv zeta. split; [reflexivity|].
  exact (filter_ignores_layout ("  Cat " +:+ nl +:+ "dog")
           (unlines ["Cat"; "dog"]) (load_blocklist (unlines ["cat"]))
           eq_refl).
Defined.

(** X4. The filter works line by line: on an input made of a first part
    that ends with a line end and of a second part, the counts are the sums
    of the counts on the parts, and the removed words and the output file
    are those of the first part followed by those of the second. *)
Theorem filter_wordlist_app head tail blocked_words :
  let st := filter_wordlist ((head +:+ nl) +:+ tail) blocked_words in
  let st1 := filter_wordlist (head +:+ nl) blocked_words in
  let st2 := filter_wordlist tail blocked_words in
  kept_count st = kept_count st1 + kept_count st2
  ∧ removed_count st = removed_count st1 + removed_count st2
  ∧ removed_words st = removed_words st1 ++ removed_words st2
  ∧ outfile st = outfile st1 +:+ outfile st2.
Proof.
  cbv zeta.
  assert (filter_wordlist ((head +:+ nl) +:+ tail) blocked_words
          = fold_left (filter_line blocked_words) (readlines tail)
                      (filter_wordlist (head +:+ nl) blocked_words)) as ->.
  { unfold filter_wordlist. by rewrite readlines_app, fold_left_app. }
  rewrite (filter_loop blocked_words (readlines tail)).
  rewrite (filter_wordlist_unfold tail). unfold input_words.
  cbn [kept_count removed_count removed_words outfile]. done.
Qed.

(** X5. A larger blocklist set removes more: the removed words under the
    smaller set are a subsequence of those under the larger one, and the
    output lines under the larger set are a subsequence of those under the
    smaller one. *)
Theorem larger_blocklist_removes_more infile blocked_words blocked_words' :
  blocked_words ⊆ blocked_words' →
  let st := filter_wordlist infile blocked_words in
  let st' := filter_wordlist infile blocked_words' in
  removed_words st `sublist_of` removed_words st'
  ∧ file_lines (outfile st') `sublist_of` file_lines (outfile st)
  ∧ (removed_count st ≤ removed_count st')%nat
  ∧ (kept_count st' ≤ kept_count st)%nat.
Proof.
  intros Hsub. cbv zeta. rewrite !output_lines, !filter_wordlist_unfold.
  cbn [kept_count removed_count removed_words].
  pose proof (removed_filter_sublist _ _ (input_words infile) Hsub) as H1.
  pose proof (kept_filter_sublist _ _ (input_words infile) Hsub) as H2.
  repeat split; [done|done|by apply sublist_length..].
Qed.

Lemma larger_blocklist_removes_more_witness :
  let small := load_blocklist (unlines ["cat"]) in
  let large := load_blocklist (unlines ["dog"; "cat"]) in
  let infile := unlines ["Cat"; "emu"; "dog"] in
  small ⊆ large
  ∧ removed_words (filter_wordlist infile small)
    `sublist_of` removed_words (filter_wordlist infile large).
Proof.
  cbv zeta.
  assert (load_blocklist (unlines ["cat"])
          ⊆ load_blocklist (unlines ["dog"; "cat"])) as Hsub.
  { intros w (l & Hl & Hw)%elem_of_load_blocklist.
    apply elem_of_load_blocklist. exists l. split; [|done].
    vm_compute in Hl. set_unfold in Hl. destruct Hl as [->|[]].
    vm_compute. right; left. }
  split; [exact Hsub|].
  exact (proj1 (larger_blocklist_removes_more
                  (unlines ["Cat"; "emu"; "dog"]) _ _ Hsub)).
Defined.

(** X6. When no input word has its lowercase form in the set (an empty
    blocklist, for one), nothing is removed: the output lines are the input
    words, all of them, and the kept count is the number of input lines. *)
Theorem nothing_blocked_keeps_all infile blocked_words :
  (∀ w, w ∈ input_words infile → lower w ∉ blocked_words) →
  let st := filter_wordlist infile blocked_words in
  removed_count st = 0
  ∧ removed_words st = []
  ∧ file_lines (outfile st) = input_words infile
  ∧ kept_count st = length (readlines infile).
Proof.
  intros H. cbv zeta. rewrite output_lines, filter_wordlist_unfold.
  cbn [kept_count removed_count removed_words].
  destruct (filter_none_blocked _ _ H) as [-> ->].
  repeat split. unfold input_words. apply length_map.
Qed.

Lemma nothing_blocked_keeps_all_witness :
  let infile := unlines ["Cat"; " emu"] in
  (∀ w, w ∈ input_words infile → lower w ∉ load_blocklist "")
  ∧ file_lines (outfile (filter_wordlist infile (load_blocklist "")))
    = input_words infile.
Proof.
  cbv zeta.
  assert (∀ w, w ∈ input_words (unlines ["Cat"; " emu"]) →
               lower w ∉ load_blocklist "") as H
    by (intros w _; apply not_elem_of_empty).
  split; [exact H|].
  exact (proj1 (proj2 (proj2 (nothing_blocked_keeps_all
                                (unlines ["Cat"; " emu"])
                                (load_blocklist "") H)))).
Defined.

(** X7. Whatever the blocklist file holds, an input line whose word has a
    space in it is never removed: it is a line of the output and it is not
    among the removed words, even when the very phrase is on the
    blocklist. *)
Theorem input_phrases_never_removed blocklist infile line :
  line ∈ readlines infile →
  contains SP (strip line) = true →
  let st := filter_wordlist infile (load_blocklist blocklist) in
  strip line ∈ file_lines (outfile st) ∧ strip line ∉ removed_words st.
Proof.
  intros Hl Hsp. cbv zeta. rewrite output_lines, filter_wordlist_unfold.
  cbn [removed_words].
  assert (lower (strip line) ∉ load_blocklist blocklist) as Hk.
  { intros (_ & _ & _ & _ & Hno)%elem_of_load_blocklist.
    rewrite contains_lower_SP in Hno. congruence. }
  split.
  - apply list_elem_of_filter. split; [done|].
    apply list_elem_of_fmap. eauto.
  - by intros [? _]%list_elem_of_filter.
Qed.

Lemma input_phrases_never_removed_witness :
  let blocklist := unlines ["ball gag"; "ball"; "gag"] in
  let infile := unlines ["ball"; " Ball Gag "] in
  " Ball Gag " +:+ nl ∈ readlines infile
  ∧ contains SP (strip (" Ball Gag " +:+ nl)) = true
  ∧ "Ball Gag" ∈ file_lines (outfile (filter_wordlist infile
                                        (load_blocklist blocklist))).
Proof.
  cbv zeta.
  assert (" Ball Gag " +:+ nl ∈ readlines (unlines ["ball"; " Ball Gag "]))
    as Hl by (vm_compute; right; left).
  split; [exact Hl|]. split; [reflexivity|].
  exact (proj1 (input_phrases_never_removed
                  (unlines ["ball gag"; "ball"; "gag"])
                  (unlines ["ball"; " Ball Gag "])
                  (" Ball Gag " +:+ nl) Hl eq_refl)).
Defined.

(** X8. The loaded set depends on the blocklist file through the stripped,
    lowercased forms of its lines only: two files with the same such forms,
    in any order, with any repetition, casing or indentation, load the same
    set. *)
Theorem load_blocklist_same_entries blocklist blocklist' :
  (∀ w, w ∈ map (λ l, lower (strip l)) (readlines blocklist)
        ↔ w ∈ map (λ l, lower (strip l)) (readlines blocklist')) →
  load_blocklist blocklist = load_blocklist blocklist'.
Proof.
  intros H. apply set_eq. intros w. rewrite !elem_of_load_blocklist.
  split; intros (l & Hl & -> & Hne & Hsp).
  - assert (lower (strip l)
            ∈ map (λ l, lower (strip l)) (readlines blocklist')) as Hin
      by (apply H, list_elem_of_fmap; eauto).
    apply list_elem_of_fmap in Hin as (l' & E & Hl').
    exists l'. by rewrite <- E.
  - assert (lower (strip l)
            ∈ map (λ l, lower (strip l)) (readlines blocklist)) as Hin
      by (apply H, list_elem_of_fmap; eauto).
    apply list_elem_of_fmap in Hin as (l' & E & Hl').
    exists l'. by rewrite <- E.
Qed.

Lemma load_blocklist_same_entries_witness :
  let blocklist := unlines ["cat"; "dog"] in
  let blocklist' := unlines [" DOG"; "Cat "; "dog"] in
  (∀ w, w ∈ map (λ l, lower (strip l)) (readlines blocklist)
        ↔ w ∈ map (λ l, lower (strip l)) (readlines blocklist'))
  ∧ load_blocklist blocklist = load_blocklist blocklist'.
Proof.
  cbv zeta.
  assert (∀ w, w ∈ map (λ l, lower (strip l))
                       (readlines (unlines ["cat"; "dog"]))
               ↔ w ∈ map (λ l, lower (strip l))
                         (readlines (unlines [" DOG"; "Cat "; "dog"]))) as H.
  { intros w. vm_compute (map _ _). set_unfold. tauto. }
  split; [exact H|].
  exact (load_blocklist_same_entries _ _ H).
Defined.

(** X9. Loading works line by line: the set loaded from a first part that
    ends with a line end followed by a second part is the union of the sets
    loaded from the parts. *)
Theorem load_blocklist_app head tail :
  load_blocklist ((head +:+ nl) +:+ tail)
  = load_blocklist (head +:+ nl) ∪ load_blocklist tail.
Proof.
  apply set_eq. intros w.
  rewrite elem_of_union, !elem_of_load_blocklist, readlines_app. split.
  - intros (l & [Hl|Hl]%elem_of_app & H); [left | right]; eauto.
  - intros [(l & Hl & H)|(l & Hl & H)]; exists l;
      (split; [apply elem_of_app; auto | done]).
Qed.

(** X10. The set cannot hold more words than the blocklist file has lines:
    the number [main] reports as loaded is at most the line count. *)
Theorem load_blocklist_size blocklist :
  (size (load_blocklist blocklist) ≤ length (readlines blocklist))%nat.
Proof.
  unfold load_blocklist.
  assert (∀ ls (acc : gset string),
            (size (fold_left load_blocklist_line ls acc)
             ≤ size acc + length ls)%nat) as H.
  { induction ls as [|l ls IH]; intros acc; cbn [fold_left length]; [lia|].
    etrans; [apply IH|].
    assert (size (load_blocklist_line acc l) ≤ S (size acc))%nat; [|lia].
    unfold load_blocklist_line.
    destruct (truthy _); [|lia].
    destruct (negb _); [|lia].
    rewrite size_union_alt, size_singleton.
    assert (acc ∖ {[lower (strip l)]} ⊆ acc) as Hsub
      by (by intros x [? _]%elem_of_difference).
    apply subseteq_size in Hsub. lia. }
  specialize (H (readlines blocklist) ∅). by rewrite size_empty in H.
Qed.

(** X11. Loader and filter together: an input word is removed exactly when
    it is not empty, has no space, and equals, up to case, the stripped
    form of some line of the blocklist file. *)
Theorem removed_iff_matches_entry blocklist infile w :
  w ∈ removed_words (filter_wordlist infile (load_blocklist blocklist)) ↔
  w ∈ input_words infile ∧ w ≠ "" ∧ contains SP w = false
  ∧ ∃ entry, entry ∈ readlines blocklist
             ∧ lower (strip entry) = lower w.
Proof.
  rewrite filter_wordlist_unfold. cbn [removed_words].
  rewrite list_elem_of_filter, elem_of_load_blocklist. split.
  - intros [(entry & He & E & Hne & Hsp) Hw].
    rewrite lower_nonempty in Hne. rewrite contains_lower_SP in Hsp. eauto 6.
  - intros (Hw & Hne & Hsp & entry & He & E). split; [|done].
    exists entry. rewrite lower_nonempty, contains_lower_SP. eauto.
Qed.

End MoreProperties.

(** * The script on the file system *)

Section IOFacts.

Import Py.

Implicit Types (w : IO.world) (blocked_words : gset string).

Lemma bind_ok {A B} (m : IO.M A) (k : A → IO.M B) w a w' :
  m w = (inr a, w') → IO.bind m k w = k a w'.
Proof. unfold IO.bind. by intros ->. Qed.

Lemma bind_raise {A B} (m : IO.M A) (k : A → IO.M B) w e w' :
  m w = (inl e, w') → IO.bind m k w = (inl e, w').
Proof. unfold IO.bind. by intros ->. Qed.

Lemma load_blocklist_path_ok path text w :
  IO.files w !! path = Some text →
  load_blocklist_path path w = (inr (load_blocklist text), w).
Proof.
  intros H. unfold load_blocklist_path, IO.bind, IO.open_r, IO.read, IO.ret.
  rewrite H. cbv beta iota. by rewrite H.
Qed.

Lemma load_blocklist_path_missing path w :
  IO.files w !! path = None →
  load_blocklist_path path w = (inl (IO.FileNotFoundError path), w).
Proof.
  intros H. unfold load_blocklist_path, IO.bind, IO.open_r. by rewrite H.
Qed.

(** Printing a list of words cannot fail and leaves the files alone. *)
Lemma for_each_print (ws : list string) w :
  ∃ printed,
    IO.for_each ws (λ x, IO.print ("  " +:+ x)) w
    = (inr tt, {| IO.files := IO.files w;
                  IO.dirs := IO.dirs w;
                  IO.stdout := IO.stdout w +:+ printed |}).
Proof.
  revert w. induction ws as [|x ws IH]; intros w.
  - exists "". cbn [IO.for_each]. unfold IO.ret.
    rewrite app_nil_r_str. by destruct w.
  - cbn [IO.for_each]. unfold IO.bind at 1. unfold IO.print at 1.
    destruct (IH {| IO.files := IO.files w;
                    IO.dirs := IO.dirs w;
                    IO.stdout := IO.stdout w +:+ (("  " +:+ x) +:+ nl) |})
      as [printed ->].
    cbn [IO.files IO.dirs IO.stdout].
    exists ((("  " +:+ x) +:+ nl) +:+ printed).
    by rewrite (app_assoc_str (IO.stdout w)).
Qed.

(** Joining a directory with a relative name puts the name after a prefix
    that depends on the directory only. *)
Lemma path_join_relative a :
  ∃ pre, ∀ b, startswith_sep b = false → path_join a b = pre +:+ b.
Proof.
  destruct (negb (truthy a) || endswith_sep a) eqn:E.
  - exists a. intros b Hb. unfold path_join. by rewrite Hb, E.
  - exists (a +:+ "/"). intros b Hb. unfold path_join.
    by rewrite Hb, E, app_assoc_str.
Qed.

Lemma path_join_inj a b b' :
  startswith_sep b = false → startswith_sep b' = false →
  path_join a b = path_join a b' → b = b'.
Proof.
  destruct (path_join_relative a) as [pre H]. intros Hb Hb'.
  rewrite (H b Hb), (H b' Hb'). apply String.app_inj.
Qed.

Lemma print_bind {B} s (k : unit → IO.M B) w :
  IO.bind (IO.print s) k w
  = k tt {| IO.files := IO.files w;
            IO.dirs := IO.dirs w;
            IO.stdout := IO.stdout w +:+ (s +:+ nl) |}.
Proof. reflexivity. Qed.

(** *** Directories *)

Lemma contains_sep_app pre b :
  contains "/" b = false → contains "/" (pre +:+ b) = contains "/" pre.
Proof. intros Hb. rewrite contains_app, Hb. apply orb_false_r. Qed.

Lemma head_to_sep_simple b : contains "/" b = false → head_to_sep b = "".
Proof. destruct b as [|c b]; [done|]. cbn [head_to_sep]. by intros ->. Qed.

Lemma head_to_sep_app pre b :
  contains "/" b = false → head_to_sep (pre +:+ b) = head_to_sep pre.
Proof.
  intros Hb. induction pre as [|c pre IH]; [by apply head_to_sep_simple|].
  change (String c pre +:+ b) with (String c (pre +:+ b)).
  cbn [head_to_sep].
  change (String c (pre +:+ b)) with (String c pre +:+ b).
  rewrite contains_sep_app by done. by rewrite IH.
Qed.

(** Two names without slash joined to one directory lie in one
    directory. *)
Lemma dirname_path_join a b b' :
  startswith_sep b = false → startswith_sep b' = false →
  contains "/" b = false → contains "/" b' = false →
  dirname (path_join a b) = dirname (path_join a b').
Proof.
  destruct (path_join_relative a) as [pre H]. intros Hb Hb' Hs Hs'.
  rewrite (H b Hb), (H b' Hb'). unfold dirname.
  by rewrite !head_to_sep_app.
Qed.

(** The directory of a file that exists exists. *)
Lemma dir_exists_of_file w path text :
  IO.files w !! path = Some text → IO.dir_exists w (dirname path) = true.
Proof.
  intros Hf. unfold IO.dir_exists. destruct path as [|c path].
  { done. }
  apply orb_true_intro. right. apply existsb_exists.
  exists (String c path). split.
  - apply (in_map fst _ (String c path, text)).
    apply list_elem_of_In, elem_of_map_to_list, Hf.
  - apply bool_decide_eq_true_2. unfold ancestors.
    cbn [String.length ancestors_upto]. left.
Qed.

(** [filter_wordlist] on two different paths, the directory of the output
    being there. *)
Lemma filter_wordlist_paths_run input_path output_path blocked_words w infile :
  IO.files w !! input_path = Some infile →
  input_path ≠ output_path →
  IO.dir_exists w (dirname output_path) = true →
  filter_wordlist_paths input_path output_path blocked_words w
  = (inr (kept_count (filter_wordlist infile blocked_words),
          removed_count (filter_wordlist infile blocked_words),
          removed_words (filter_wordlist infile blocked_words)),
     {| IO.files := <[output_path := outfile (filter_wordlist infile
                                                blocked_words)]> (IO.files w);
        IO.dirs := IO.dirs w;
        IO.stdout := IO.stdout w |}).
Proof.
  intros Hin Hne Hdir.
  unfold filter_wordlist_paths, IO.bind, IO.open_r, IO.open_w, IO.read,
    IO.write, IO.ret.
  rewrite Hin, Hdir. cbn [IO.files IO.dirs IO.stdout].
  rewrite lookup_insert_ne by done. rewrite Hin. cbn [default].
  by rewrite lookup_insert_eq, insert_insert_eq.
Qed.

(** [filter_wordlist] stops at the first [open] when the input is
    missing. *)
Lemma open_input_missing input_path output_path blocked_words w :
  IO.files w !! input_path = None →
  filter_wordlist_paths input_path output_path blocked_words w
  = (inl (IO.FileNotFoundError input_path), w).
Proof.
  intros H. unfold filter_wordlist_paths, IO.bind, IO.open_r. by rewrite H.
Qed.

Lemma main_input_output_distinct script_dir :
  path_join script_dir "all.txt" ≠ path_join script_dir "all_filtered.txt".
Proof. intros E. by apply path_join_inj in E. Qed.

Lemma main_blocklist_output_distinct script_dir :
  path_join script_dir "blocklist.txt"
  ≠ path_join script_dir "all_filtered.txt".
Proof. intros E. by apply path_join_inj in E. Qed.

(** A run of [main] with both input files in place. *)
Lemma main_run script_dir w blocklist infile :
  IO.files w !! path_join script_dir "blocklist.txt" = Some blocklist →
  IO.files w !! path_join script_dir "all.txt" = Some infile →
  (main script_dir w).1 = inr tt
  ∧ IO.files (main script_dir w).2
    = <[path_join script_dir "all_filtered.txt"
        := outfile (filter_wordlist infile (load_blocklist blocklist))]>
        (IO.files w).
Proof.
  intros Hb Hin.
  pose proof (main_input_output_distinct script_dir) as Hio.
  assert (IO.dir_exists w (dirname (path_join script_dir "all_filtered.txt"))
          = true) as Hdir.
  { rewrite (dirname_path_join script_dir "all_filtered.txt" "all.txt")
      by reflexivity.
    by apply (dir_exists_of_file w _ infile). }
  unfold main. cbv zeta. rewrite print_bind.
  erewrite bind_ok by (by apply load_blocklist_path_ok).
  rewrite !print_bind.
  erewrite bind_ok
    by (apply (filter_wordlist_paths_run (path_join script_dir "all.txt")
                 (path_join script_dir "all_filtered.txt"));
        [exact Hin | exact Hio | exact Hdir]).
  cbv beta iota zeta. cbn [IO.files IO.dirs IO.stdout]. rewrite print_bind.
  match goal with
  | |- context [IO.bind (IO.for_each ?ws ?f) ?k ?w0] =>
      destruct (for_each_print ws w0) as [printed E];
      rewrite (bind_ok (IO.for_each ws f) k w0 tt _ E)
  end.
  rewrite !print_bind. unfold IO.print. by cbn [fst snd IO.files].
Qed.

(** A run of [main] that returns normally found both input files. *)
Lemma main_run_inv script_dir w :
  (main script_dir w).1 = inr tt →
  ∃ blocklist infile,
    IO.files w !! path_join script_dir "blocklist.txt" = Some blocklist
    ∧ IO.files w !! path_join script_dir "all.txt" = Some infile.
Proof.
  intros Hr.
  destruct (IO.files w !! path_join script_dir "blocklist.txt")
    as [blocklist|] eqn:Hb.
  - destruct (IO.files w !! path_join script_dir "all.txt")
      as [infile|] eqn:Hin; [by eauto|].
    exfalso. revert Hr. unfold main. cbv zeta. rewrite print_bind.
    erewrite bind_ok by (by apply load_blocklist_path_ok).
    rewrite !print_bind.
    erewrite bind_raise by (by apply open_input_missing). done.
  - exfalso. revert Hr. unfold main. cbv zeta. rewrite print_bind.
    erewrite bind_raise by (by apply load_blocklist_path_missing). done.
Qed.

End IOFacts.

Section IOProperties.

Import Py.

Implicit Types (w : IO.world) (blocked_words : gset string).



(** X13. On canonical paths, when the input file exists and the output
    path is another path that is not a directory: if the directory of the
    output path exists, [filter_wordlist] returns the counts and the
    removed words of the filter on the input text, the output file holds
    exactly the kept words whatever it held before, every other file, the
    input included, is as it was, and nothing is printed; if that
    directory does not exist (and no file stands in its place),
    [filter_wordlist] raises [FileNotFoundError] on the output path and
    has changed nothing. *)
Theorem filter_paths_ok input_path output_path blocked_words w infile :
  canonical input_path = true →
  canonical output_path = true →
  IO.files w !! input_path = Some infile →
  input_path ≠ output_path →
  IO.dir_exists w output_path = false →
  let st := filter_wordlist infile blocked_words in
  let w' := {| IO.files := <[output_path := outfile st]> (IO.files w);
               IO.dirs := IO.dirs w;
               IO.stdout := IO.stdout w |} in
  (IO.dir_exists w (dirname output_path) = true →
   filter_wordlist_paths input_path output_path blocked_words w
   = (inr (kept_count st, removed_count st, removed_words st), w')
   ∧ IO.files w' !! input_path = Some infile
   ∧ ∀ p, p ≠ output_path → IO.files w' !! p = IO.files w !! p)
  ∧ (IO.dir_exists w (dirname output_path) = false →
     Forall (λ d, IO.files w !! d = None) (ancestors output_path) →
     filter_wordlist_paths input_path output_path blocked_words w
     = (inl (IO.FileNotFoundError output_path), w)).
Proof.
  intros _ _ Hin Hne _. cbv zeta. cbn [IO.files]. split.
  - intros Hdir. split; [|split].
    + by apply filter_wordlist_paths_run.
    + rewrite lookup_insert_ne by done. exact Hin.
    + intros p Hp. by rewrite lookup_insert_ne.
  - intros Hdir _.
    unfold filter_wordlist_paths, IO.bind, IO.open_r, IO.open_w.
    by rewrite Hin, Hdir.
Qed.

Lemma filter_paths_ok_witness :
  let w := {| IO.files := {[ "/d/all.txt" := unlines ["Cat"; "emu"];
                             "/d/out.txt" := "stale" ]};
              IO.dirs := ∅;
              IO.stdout := "" |} in
  let blocked_words := load_blocklist (unlines ["cat"]) in
  canonical "/d/all.txt" = true
  ∧ canonical "/d/out.txt" = true
  ∧ canonical "/nodir/out.txt" = true
  ∧ IO.files w !! "/d/all.txt" = Some (unlines ["Cat"; "emu"])
  ∧ IO.dir_exists w "/d/out.txt" = false
  ∧ IO.dir_exists w (dirname "/d/out.txt") = true
  ∧ IO.dir_exists w "/nodir/out.txt" = false
  ∧ IO.dir_exists w (dirname "/nodir/out.txt") = false
  ∧ Forall (λ d, IO.files w !! d = None) (ancestors "/nodir/out.txt")
  ∧ (filter_wordlist_paths "/d/all.txt" "/d/out.txt" blocked_words w).1
    = inr (1, 1, ["Cat"])
  ∧ IO.files (filter_wordlist_paths "/d/all.txt" "/d/out.txt"
                blocked_words w).2 !! "/d/out.txt"
    = Some (unlines ["emu"])
  ∧ filter_wordlist_paths "/d/all.txt" "/nodir/out.txt" blocked_words w
    = (inl (IO.FileNotFoundError "/nodir/out.txt"), w).
Proof.
  cbv zeta.
  set (w := {| IO.files := {[ "/d/all.txt" := unlines ["Cat"; "emu"];
                              "/d/out.txt" := "stale" ]};
               IO.dirs := ∅;
               IO.stdout := "" |}).
  assert (IO.files w !! "/d/all.txt" = Some (unlines ["Cat"; "emu"]))
    as Hin by reflexivity.
  assert (IO.dir_exists w "/d/out.txt" = false) as Hf1
    by (vm_compute; reflexivity).
  assert (IO.dir_exists w (dirname "/d/out.txt") = true) as Hd1
    by (vm_compute; reflexivity).
  assert (IO.dir_exists w "/nodir/out.txt" = false) as Hf2
    by (vm_compute; reflexivity).
  assert (IO.dir_exists w (dirname "/nodir/out.txt") = false) as Hd2
    by (vm_compute; reflexivity).
  assert (Forall (λ d, IO.files w !! d = None) (ancestors "/nodir/out.txt"))
    as Hanc.
  { apply Forall_forall. intros d Hd. vm_compute in Hd.
    set_unfold in Hd. clear -Hd.
    repeat (destruct Hd as [->|Hd]; [reflexivity|]). destruct Hd. }
  assert ("/d/all.txt" ≠ "/d/out.txt") as Hne1 by discriminate.
  assert ("/d/all.txt" ≠ "/nodir/out.txt") as Hne2 by discriminate.
  pose proof (filter_paths_ok "/d/all.txt" "/d/out.txt"
                (load_blocklist (unlines ["cat"])) w _
                eq_refl eq_refl Hin Hne1 Hf1) as [Hok _].
  pose proof (filter_paths_ok "/d/all.txt" "/nodir/out.txt"
                (load_blocklist (unlines ["cat"])) w _
                eq_refl eq_refl Hin Hne2 Hf2) as [_ Hbad].
  destruct (Hok Hd1) as (Hrun & _ & _).
  split; [reflexivity|]. split; [reflexivity|]. split; [reflexivity|].
  split; [exact Hin|]. split; [exact Hf1|]. split; [exact Hd1|].
  split; [exact Hf2|]. split; [exact Hd2|]. split; [exact Hanc|].
  split; [rewrite Hrun; by vm_compute|].
  split; [rewrite Hrun; by vm_compute|].
  exact (Hbad Hd2 Hanc).
Defined.

(** X14. Run in place, with the output path equal to the input path, the
    filter destroys the word list: the file is emptied when it is opened
    for writing, before any line is read, so nothing is kept, nothing is
    removed and the file is left empty. *)
Theorem filter_in_place_empties path blocked_words w infile :
  IO.files w !! path = Some infile →
  filter_wordlist_paths path path blocked_words w
  = (inr (0, 0, []),
     {| IO.files := <[path := ""]> (IO.files w); IO.dirs := IO.dirs w; IO.stdout := IO.stdout w |}).
Proof.
  intros Hin.
  unfold filter_wordlist_paths, IO.bind, IO.open_r, IO.open_w, IO.read,
    IO.write, IO.ret.
  rewrite Hin, (dir_exists_of_file _ _ _ Hin). cbn [IO.files IO.dirs IO.stdout].
  rewrite lookup_insert_eq. cbn [default].
  change (filter_wordlist "" blocked_words) with filter_init.
  cbn [outfile kept_count removed_count removed_words filter_init].
  by rewrite insert_insert_eq.
Qed.

Lemma filter_in_place_empties_witness :
  let w := {| IO.files := {[ "all.txt" := unlines ["Cat"; "emu"] ]};
              IO.dirs := ∅;
              IO.stdout := "" |} in
  IO.files w !! "all.txt" = Some (unlines ["Cat"; "emu"])
  ∧ IO.files (filter_wordlist_paths "all.txt" "all.txt" ∅ w).2 !! "all.txt"
    = Some "".
Proof.
  cbv zeta.
  assert (IO.files {| IO.files := {[ "all.txt" := unlines ["Cat"; "emu"] ]};
                      IO.dirs := ∅;
                      IO.stdout := "" |} !! "all.txt"
          = Some (unlines ["Cat"; "emu"])) as Hin by reflexivity.
  split; [exact Hin|].
  rewrite (filter_in_place_empties "all.txt" ∅ _ _ Hin).
  reflexivity.
Defined.

(** X15. Whatever the directory of the script, the three paths [main]
    works on are different from one another: the output file is neither
    the blocklist nor the word list. *)
Theorem main_paths_distinct script_dir :
  path_join script_dir "blocklist.txt" ≠ path_join script_dir "all.txt"
  ∧ path_join script_dir "blocklist.txt"
    ≠ path_join script_dir "all_filtered.txt"
  ∧ path_join script_dir "all.txt" ≠ path_join script_dir "all_filtered.txt".
Proof.
  repeat split; intros E; by apply path_join_inj in E.
Qed.








(** X20. Running the script again changes nothing: after a run of [main]
    that returned normally, a second run returns normally too and leaves
    every file, [all_filtered.txt] included, with the content it had after
    the first run. *)
Theorem main_rerun script_dir w :
  (main script_dir w).1 = inr tt →
  let w1 := (main script_dir w).2 in
  (main script_dir w1).1 = inr tt
  ∧ IO.files (main script_dir w1).2 = IO.files w1.
Proof.
  intros (blocklist & infile & Hb & Hin)%main_run_inv. cbv zeta.
  destruct (main_run script_dir w blocklist infile Hb Hin) as [_ Hf].
  assert (IO.files (main script_dir w).2
            !! path_join script_dir "blocklist.txt" = Some blocklist) as Hb1.
  { rewrite Hf, lookup_insert_ne; [done|].
    intros E. by apply (main_blocklist_output_distinct script_dir). }
  assert (IO.files (main script_dir w).2
            !! path_join script_dir "all.txt" = Some infile) as Hin1.
  { rewrite Hf, lookup_insert_ne; [done|].
    intros E. by apply (main_input_output_distinct script_dir). }
  destruct (main_run script_dir _ blocklist infile Hb1 Hin1) as [Hr2 Hf2].
  split; [exact Hr2|]. rewrite Hf2, Hf. apply insert_insert_eq.
Qed.

Lemma main_rerun_witness :
  let w := {| IO.files := {[ "/d/blocklist.txt" := unlines ["cat"];
                             "/d/all.txt" := unlines ["Cat"; " emu"] ]};
              IO.dirs := ∅;
              IO.stdout := "" |} in
  (main "/d" w).1 = inr tt
  ∧ IO.files (main "/d" (main "/d" w).2).2 = IO.files (main "/d" w).2.
Proof.
  cbv zeta.
  assert ((main "/d" {| IO.files := {[ "/d/blocklist.txt" := unlines ["cat"];
                                       "/d/all.txt" := unlines ["Cat"; " emu"] ]};
                        IO.dirs := ∅;
                        IO.stdout := "" |}).1 = inr tt) as Hr
    by (vm_compute; reflexivity).
  split; [exact Hr|].
  exact (proj2 (main_rerun "/d" _ Hr)).
Defined.

End IOProperties.
